(** * update_version.py: the version synchronizer

    A shallow embedding of [update_version.py] and the proofs of the
    properties its specification states.

    The script is a module body: two constants ([VERSION], [locations]) and
    one [for] loop that, for every path, reads the file as a list of lines,
    assigns [data[2]], writes the list back and prints a confirmation.

    Modelling choices.
    - Text is a list of 8-bit characters.  The file on disk and the decoded
      text are identified: decoding and encoding are taken to be inverse to
      each other (they are for a UTF-8 file read under a UTF-8 locale, and
      neither of the two newline characters occurs inside a multi-byte
      sequence).
    - [open(i, "r")] uses the default [newline=None]: universal newlines,
      every CR LF pair and every lone CR is handed to the program as LF.
    - [open(i, "w", newline="\n")] writes the characters it is given.
    - The file system is a finite map from paths to files; a file carries
      its content and whether it may be opened for reading and for writing.
    - The interpreter state is threaded explicitly; an exception stops the
      run and keeps the state reached so far.
    - The state also keeps the history of the effects of the run (reads,
      truncations, writes, prints), so that their order can be stated.
    - What is not modelled: a failure in the middle of a write, directories,
      links between paths, and decoding errors. *)

From Stdlib Require Import Ascii String.
From stdpp Require Import gmap strings list fin_maps.

(** ** Text and line handling *)

Module Text.

Abbreviation text := (list ascii).

Definition LF : ascii := "010"%char.
Definition CR : ascii := "013"%char.
Definition DQUOTE : ascii := "034"%char.

Definition of_string (s : string) : text := list_ascii_of_string s.

(** Universal-newlines decoding, as done by a text stream opened with
    [newline=None]: CR LF and a lone CR both become LF. *)
Fixpoint translate (s : text) : text :=
  match s with
  | [] => []
  | c :: t =>
      if decide (c = CR) then
        LF :: match t with
              | c' :: t' => if decide (c' = LF) then translate t' else translate t
              | [] => []
              end
      else c :: translate t
  end.

(** [readline]: the characters up to and including the first LF, and what
    is left of the stream. *)
Fixpoint readline (s : text) : text * text :=
  match s with
  | [] => ([], [])
  | c :: t =>
      if decide (c = LF) then ([LF], t)
      else let '(l, r) := readline t in (c :: l, r)
  end.

(** [readlines]: all the lines of the stream, each with its terminator; a
    last line without terminator is kept, an empty stream has no line. *)
Fixpoint readlines (s : text) : list text :=
  match s with
  | [] => []
  | c :: t =>
      if decide (c = LF) then [LF] :: readlines t
      else match readlines t with
           | [] => [[c]]
           | l :: ls => (c :: l) :: ls
           end
  end.

(** The lines of a file as it is on disk, under the same universal-newlines
    convention, each with the terminator the file really has (LF, CR LF or a
    lone CR). *)
Fixpoint raw_lines (s : text) : list text :=
  match s with
  | [] => []
  | c :: t =>
      if decide (c = CR) then
        match t with
        | c' :: t' =>
            if decide (c' = LF) then [CR; LF] :: raw_lines t'
            else [CR] :: raw_lines t
        | [] => [[CR]]
        end
      else if decide (c = LF) then [LF] :: raw_lines t
      else match raw_lines t with
           | [] => [[c]]
           | l :: ls => (c :: l) :: ls
           end
  end.

(** The two characters that line terminators are made of. *)
Definition is_eol (c : ascii) : bool := bool_decide (c = LF) || bool_decide (c = CR).

(** The characters of a line that are not terminator characters: for a
    line of [raw_lines], the line without its terminator. *)
Definition line_content (l : text) : text := filter (λ c, is_eol c = false) l.

(** [file.writelines(data)] with [newline="\n"]: the lines one after the
    other, nothing translated. *)
Definition writelines (data : list text) : text := concat data.

(** A line that ends in LF and has no other LF. *)
Definition terminated (l : text) : Prop := ∃ b, l = b ++ [LF] ∧ LF ∉ b.

(** A non-empty piece of text without LF: a last line with no terminator. *)
Definition unterminated (l : text) : Prop := l ≠ [] ∧ LF ∉ l.

(** What a list of lines read from a stream looks like. *)
Fixpoint lines_wf (ls : list text) : Prop :=
  match ls with
  | [] => True
  | l :: ls' =>
      match ls' with
      | [] => terminated l ∨ unterminated l
      | _ :: _ => terminated l ∧ lines_wf ls'
      end
  end.

End Text.

(** ** The interpreter state and the script *)

Module Script.
Import Text.

(** The exceptions the script can end with. *)
Inductive exn : Type :=
  | FileNotFoundError (path : string)
  | PermissionError (path : string)
  | IndexError.

Record file : Type := File {
  readable : bool;
  writable : bool;
  content : text
}.

#[export] Instance file_eq_dec : EqDecision file.
Proof. solve_decision. Defined.

(** What the run does to the outside, in the order it does it. *)
Inductive event : Type :=
  | Read (path : string)
  | Truncated (path : string)
  | Wrote (path : string) (chars : text)
  | Printed (line : text).

(** Everything a process could look at or change: the file system, the
    command line, the environment, what has been printed so far, and the
    history of effects. *)
Record world : Type := World {
  fs : gmap string file;
  argv : list string;
  environ : gmap string string;
  stdout : text;
  history : list event
}.

Inductive result (A : Type) : Type :=
  | Ok (a : A)
  | Raise (e : exn).
Arguments Ok {A} a.
Arguments Raise {A} e.

(** A computation: from a state to a result and the state reached; after
    [Raise] the state is the one at the point of failure. *)
Definition M (A : Type) : Type := world → result A * world.

#[export] Instance M_ret : MRet M := λ A a w, (Ok a, w).

#[export] Instance M_bind : MBind M := λ A B k m w,
  match m w with
  | (Ok a, w') => k a w'
  | (Raise e, w') => (Raise e, w')
  end.

#[export] Instance M_throw : MThrow exn M := λ A e w, (Raise e, w).

Definition set_fs (m : gmap string file) (w : world) : world :=
  World m (argv w) (environ w) (stdout w) (history w).
Definition set_stdout (s : text) (w : world) : world :=
  World (fs w) (argv w) (environ w) s (history w).
Definition record (e : event) (w : world) : world :=
  World (fs w) (argv w) (environ w) (stdout w) (history w ++ [e]).

(** [with open(i, "r") as file: ... file.readlines()]: the path must exist
    and be readable; the stream is the content decoded with universal
    newlines. *)
Definition open_r_readlines (i : string) : M (list text) :=
  λ w, match fs w !! i with
       | None => (Raise (FileNotFoundError i), w)
       | Some f =>
           if readable f
           then (Ok (readlines (translate (content f))), record (Read i) w)
           else (Raise (PermissionError i), w)
       end.

(** [data[k] = v] for a non-negative [k]: in range or [IndexError]. *)
Definition setitem (data : list text) (k : nat) (v : text) : M (list text) :=
  if decide (k < length data) then mret (<[k:=v]> data) else mthrow IndexError.

(** [open(i, "w", ...)]: an existing file must be writable and is
    truncated; a missing one is created empty. *)
Definition open_w (i : string) : M unit :=
  λ w, match fs w !! i with
       | None =>
           (Ok (), record (Truncated i) (set_fs (<[i := File true true []]> (fs w)) w))
       | Some f =>
           if writable f
           then (Ok (), record (Truncated i)
                          (set_fs (<[i := File (readable f) (writable f) []]> (fs w)) w))
           else (Raise (PermissionError i), w)
       end.

(** [file.writelines(data)] on the stream opened by [open_w i]: the
    characters are appended to the file, which [open_w] has left empty. *)
Definition write (i : string) (chars : text) : M unit :=
  λ w, match fs w !! i with
       | None => (Raise (FileNotFoundError i), w)
       | Some f =>
           (Ok (), record (Wrote i chars)
                     (set_fs (<[i := File (readable f) (writable f) (content f ++ chars)]> (fs w)) w))
       end.

(** [print(s)]: the text and a line feed on standard output. *)
Definition print (s : text) : M unit :=
  λ w, (Ok (), record (Printed s) (set_stdout (stdout w ++ s ++ [LF]) w)).

(** [for i in l: body] *)
Fixpoint for_each {A} (l : list A) (body : A → M unit) : M unit :=
  match l with
  | [] => mret ()
  | i :: l' => body i;; for_each l' body
  end.

(** The module constants. *)
Definition VERSION : string := "0.2.5".

Definition locations : list string :=
  [ "./vec-utils/Cargo.toml";
    "./vec-utils-py/Cargo.toml";
    "./vec-utils-py/pyproject.toml" ]%string.

(** [f'version = "{VERSION}"\n'] *)
Definition version_line : text :=
  of_string "version = " ++ [DQUOTE] ++ of_string VERSION ++ [DQUOTE] ++ [LF].

(** [f"{i} version updated"] *)
Definition confirmation (i : string) : text :=
  of_string i ++ of_string " version updated".

(** The body of the loop, for one path. *)
Definition synchronize_one (i : string) : M unit :=
  data ← open_r_readlines i;
  data ← setitem data 2 version_line;
  open_w i;;
  write i (writelines data);;
  print (confirmation i).

(** The script. *)
Definition synchronize : M unit := for_each locations synchronize_one.

(** What one successful pass leaves in a file whose content was [c]. *)
Definition synced (c : text) : text :=
  writelines (<[2 := version_line]> (readlines (translate c))).

Definition synced_file (f : file) : file :=
  File (readable f) (writable f) (synced (content f)).

(** The effects of one successful pass over path [i], in order; [chars] is
    what the pass writes. *)
Definition pass_events (i : string) (chars : text) : list event :=
  [Read i; Truncated i; Wrote i chars; Printed (confirmation i)].

(** The state after one successful pass over path [i], which held [f]. *)
Definition passed (i : string) (f : file) (w : world) : world :=
  World (<[i := synced_file f]> (fs w)) (argv w) (environ w)
        (stdout w ++ confirmation i ++ [LF])
        (history w ++ pass_events i (synced (content f))).

(** A file the loop body gets through: it can be read and written and the
    program sees at least three lines in it. *)
Definition ready_file (f : file) : bool :=
  readable f && writable f &&
  bool_decide (2 < length (readlines (translate (content f)))).

Definition ready (m : gmap string file) (p : string) : bool :=
  match m !! p with
  | Some f => ready_file f
  | None => false
  end.

(** The characters of the file at [p], nothing for a missing one. *)
Definition chars_at (m : gmap string file) (p : string) : text :=
  match m !! p with
  | Some f => content f
  | None => []
  end.

(** The confirmation lines of the paths [l], as they reach standard output. *)
Definition confirmations (l : list string) : text :=
  concat ((λ p, confirmation p ++ [LF]) <$> l).

(** Every path of [locations] holds a ready file. *)
Definition all_ready (m : gmap string file) : bool :=
  forallb (ready m) locations.



End Script.

(** ** Sample files and states *)

Module Samples.
Import Text Script.

(** The manifest of the scenario in the specification, line by line. *)
Definition manifest_before : list text :=
  [ of_string "[package]" ++ [LF];
    of_string "name = " ++ [DQUOTE] ++ of_string "x" ++ [DQUOTE] ++ [LF];
    of_string "version = " ++ [DQUOTE] ++ of_string "0.2.4" ++ [DQUOTE] ++ [LF];
    of_string "edition = " ++ [DQUOTE] ++ of_string "2021" ++ [DQUOTE] ++ [LF] ].

Definition manifest_after : list text :=
  [ of_string "[package]" ++ [LF];
    of_string "name = " ++ [DQUOTE] ++ of_string "x" ++ [DQUOTE] ++ [LF];
    of_string "version = " ++ [DQUOTE] ++ of_string "0.2.5" ++ [DQUOTE] ++ [LF];
    of_string "edition = " ++ [DQUOTE] ++ of_string "2021" ++ [DQUOTE] ++ [LF] ].

(** Four lines that end in CR LF. *)
Definition crlf_file : text :=
  of_string "a" ++ [CR; LF] ++ of_string "b" ++ [CR; LF] ++
  of_string "c" ++ [CR; LF] ++ of_string "d" ++ [CR; LF].


(** A file system in which every path of [l] holds a readable and writable
    file of content [c]. *)
Definition files_at (l : list string) (c : text) : gmap string file :=
  list_to_map ((λ p, (p, File true true c)) <$> l).

(** A process that has just started: nothing printed, nothing done. *)
Definition start (m : gmap string file) : world := World m [] ∅ [] [].



(** A start in which every target holds the CR LF file. *)
Definition all_crlf : world := start (files_at locations crlf_file).




End Samples.

(** ** Facts about lines *)

Section line_facts.
Import Text.

(** Induction that peels one or two characters, as [translate] and
    [raw_lines] do. *)
Lemma text_pair_ind (P : text → Prop) :
  P [] → (∀ c, P [c]) → (∀ c c' t, P t → P (c' :: t) → P (c :: c' :: t)) →
  ∀ s, P s.
Proof.
  intros Hnil Hone Hstep s.
  enough (P s ∧ ∀ c, P (c :: s)) as [? _] by done.
  induction s as [|c' t [IH1 IH2]]; split; auto.
Qed.

Lemma LF_neq_CR : LF ≠ CR.
Proof. discriminate. Qed.

Lemma translate_CR_LF t : translate (CR :: LF :: t) = LF :: translate t.
Proof. done. Qed.

Lemma translate_CR_other c t :
  c ≠ LF → translate (CR :: c :: t) = LF :: translate (c :: t).
Proof. intros Hc. cbn [translate]. rewrite decide_True by done. by rewrite (decide_False (P := c = LF)). Qed.

Lemma translate_CR_end : translate [CR] = [LF].
Proof. done. Qed.

Lemma translate_other c t : c ≠ CR → translate (c :: t) = c :: translate t.
Proof. intros Hc. cbn [translate]. by rewrite decide_False. Qed.

Lemma translate_no_CR s : CR ∉ translate s.
Proof.
  induction s as [|c|c c' t IH1 IH2] using text_pair_ind.
  - apply not_elem_of_nil.
  - destruct (decide (c = CR)) as [->|Hc].
    + rewrite translate_CR_end, not_elem_of_cons.
      split; [discriminate|apply not_elem_of_nil].
    + rewrite translate_other, not_elem_of_cons by done.
      split; [done|apply not_elem_of_nil].
  - destruct (decide (c = CR)) as [->|Hc].
    + destruct (decide (c' = LF)) as [->|Hc'].
      * rewrite translate_CR_LF, not_elem_of_cons. split; [discriminate|done].
      * rewrite translate_CR_other, not_elem_of_cons by done.
        split; [discriminate|done].
    + rewrite translate_other, not_elem_of_cons by done. done.
Qed.

Lemma translate_id s : CR ∉ s → translate s = s.
Proof.
  induction s as [|c t IH]; [done|].
  rewrite not_elem_of_cons. intros [Hc Ht]. simpl.
  case_decide; [congruence|]. by rewrite IH.
Qed.



Lemma readlines_other c t :
  c ≠ LF →
  readlines (c :: t) =
    match readlines t with [] => [[c]] | l :: ls => (c :: l) :: ls end.
Proof. intros Hc. cbn [readlines]. by rewrite decide_False. Qed.

Lemma readlines_unfold s :
  s ≠ [] → readlines s = (readline s).1 :: readlines (readline s).2.
Proof.
  induction s as [|c t IH]; [done|]. intros _. simpl.
  case_decide; [done|].
  destruct t as [|c' t']; [done|].
  rewrite IH by done. by destruct (readline (c' :: t')).
Qed.

Lemma concat_readlines s : concat (readlines s) = s.
Proof.
  induction s as [|c t IH]; [done|]. simpl.
  case_decide; subst; simpl; [by rewrite IH|].
  destruct (readlines t); simpl in *; by rewrite <- IH.
Qed.

Lemma readlines_nil_inv s : readlines s = [] → s = [].
Proof. intros H. by rewrite <- (concat_readlines s), H. Qed.

Lemma terminated_cons c l : c ≠ LF → terminated l → terminated (c :: l).
Proof.
  intros Hc (b & -> & Hb). exists (c :: b). split; [done|].
  rewrite not_elem_of_cons. auto.
Qed.

Lemma terminated_LF : terminated [LF].
Proof. exists []. split; [done|]. apply not_elem_of_nil. Qed.

Lemma unterminated_cons c l : c ≠ LF → unterminated l → unterminated (c :: l).
Proof.
  intros Hc [_ Hl]. split; [done|]. rewrite not_elem_of_cons. auto.
Qed.

Lemma lines_wf_readlines s : lines_wf (readlines s).
Proof.
  induction s as [|c t IH]; [done|]. simpl.
  case_decide.
  - destruct (readlines t) eqn:E; simpl; [left|split; [|done]]; apply terminated_LF.
  - destruct (readlines t) as [|l [|l' ls]] eqn:E; simpl in *.
    + right. split; [done|]. rewrite not_elem_of_cons. split; [auto|apply not_elem_of_nil].
    + destruct IH; [left|right]; auto using terminated_cons, unterminated_cons.
    + destruct IH. split; auto using terminated_cons.
Qed.

Lemma readlines_terminated b r :
  LF ∉ b → readlines (b ++ LF :: r) = (b ++ [LF]) :: readlines r.
Proof.
  induction b as [|c b IH]; [done|].
  rewrite not_elem_of_cons. intros [Hc Hb]. simpl app.
  rewrite readlines_other by done. by rewrite IH.
Qed.

Lemma readlines_unterminated l : unterminated l → readlines l = [l].
Proof.
  intros [Hne Hl]. induction l as [|c l IH]; [done|].
  apply not_elem_of_cons in Hl as [Hc Hl]. simpl.
  case_decide; [congruence|].
  destruct l as [|c' l']; [done|]. by rewrite IH.
Qed.

(** Writing well-formed lines and reading them back gives the same lines. *)
Lemma readlines_writelines ls : lines_wf ls → readlines (writelines ls) = ls.
Proof.
  unfold writelines. induction ls as [|l ls IH]; [done|].
  destruct ls as [|l' ls'].
  - simpl. rewrite app_nil_r. intros [(b & -> & Hb)|Hu].
    + by rewrite readlines_terminated.
    + by apply readlines_unterminated.
  - intros [(b & -> & Hb) Hwf].
    rewrite concat_cons, <- app_assoc.
    change ([LF] ++ concat (l' :: ls')) with (LF :: concat (l' :: ls')).
    rewrite readlines_terminated by done. by rewrite IH.
Qed.

Lemma lines_wf_insert ls k v :
  lines_wf ls → terminated v → lines_wf (<[k:=v]> ls).
Proof.
  intros Hwf Hv. revert k. induction ls as [|l ls IH]; intros k; [done|].
  destruct k as [|k]; simpl.
  - destruct ls; simpl in *; [by left|]. destruct Hwf. by split.
  - destruct ls as [|l' ls']; [done|]. destruct Hwf as [Hl Hwf].
    specialize (IH Hwf k). destruct k; simpl in *; by split.
Qed.

Lemma terminated_version_line : terminated Script.version_line.
Proof.
  exists (of_string "version = " ++ [DQUOTE] ++ of_string Script.VERSION ++ [DQUOTE]).
  split; [done|]. apply (bool_decide_eq_true_1 _). by vm_compute.
Qed.

Lemma raw_lines_CR_LF t : raw_lines (CR :: LF :: t) = [CR; LF] :: raw_lines t.
Proof. done. Qed.

Lemma raw_lines_CR_other c t :
  c ≠ LF → raw_lines (CR :: c :: t) = [CR] :: raw_lines (c :: t).
Proof.
  intros Hc. cbn [raw_lines]. rewrite decide_True by done.
  by rewrite (decide_False (P := c = LF)).
Qed.

Lemma raw_lines_LF t : raw_lines (LF :: t) = [LF] :: raw_lines t.
Proof. by destruct t. Qed.

Lemma raw_lines_other c t :
  c ≠ CR → c ≠ LF →
  raw_lines (c :: t) =
    match raw_lines t with [] => [[c]] | l :: ls => (c :: l) :: ls end.
Proof. intros Hc Hc'. cbn [raw_lines]. by rewrite !decide_False. Qed.








Lemma line_content_other c l :
  c ≠ CR → c ≠ LF → line_content (c :: l) = c :: line_content l.
Proof.
  intros Hc Hc'. unfold line_content. apply filter_cons_True.
  unfold is_eol. by rewrite !bool_decide_eq_false_2.
Qed.

(** Every line of a file on disk is its content followed by its
    terminator, and the terminator is LF, a lone CR, CR LF, or nothing. *)
Lemma raw_lines_shape s :
  Forall (λ l, ∃ e, l = line_content l ++ e ∧ e ∈ [[]; [LF]; [CR]; [CR; LF]])
         (raw_lines s).
Proof.
  induction s as [|c|c c' t IH1 IH2] using text_pair_ind; [constructor|..].
  - destruct (decide (c = CR)) as [->|Hc].
    { repeat constructor. exists [CR]. split; [done|]. set_solver. }
    destruct (decide (c = LF)) as [->|Hc'].
    { repeat constructor. exists [LF]. split; [done|]. set_solver. }
    rewrite raw_lines_other by done. repeat constructor.
    exists []. rewrite line_content_other by done. split; [done|]. set_solver.
  - destruct (decide (c = CR)) as [->|Hc].
    { destruct (decide (c' = LF)) as [->|Hc'].
      - rewrite raw_lines_CR_LF. constructor; [|done].
        exists [CR; LF]. split; [done|]. set_solver.
      - rewrite raw_lines_CR_other by done. constructor; [|done].
        exists [CR]. split; [done|]. set_solver. }
    destruct (decide (c = LF)) as [->|Hc'].
    { rewrite raw_lines_LF. constructor; [|done].
      exists [LF]. split; [done|]. set_solver. }
    rewrite raw_lines_other by done.
    destruct (raw_lines (c' :: t)) as [|l ls].
    + repeat constructor. exists [].
      rewrite line_content_other by done. split; [done|]. set_solver.
    + apply Forall_cons in IH2 as [(e & Hl & He) Hls]. constructor; [|done].
      exists e. rewrite line_content_other by done. split; [|done].
      simpl. by rewrite <- Hl.
Qed.

Lemma not_elem_of_concat (x : ascii) (ls : list text) :
  x ∉ concat ls ↔ Forall (λ l, x ∉ l) ls.
Proof.
  induction ls as [|l ls IH]; simpl.
  - split; [constructor|]. intros _. apply not_elem_of_nil.
  - rewrite not_elem_of_app, Forall_cons, IH. done.
Qed.

Lemma version_line_no_CR : CR ∉ Script.version_line.
Proof. apply (bool_decide_eq_true_1 _). by vm_compute. Qed.

Lemma synced_no_CR c : CR ∉ Script.synced c.
Proof.
  unfold Script.synced, writelines. apply not_elem_of_concat, Forall_insert.
  - apply not_elem_of_concat. rewrite concat_readlines. apply translate_no_CR.
  - apply version_line_no_CR.
Qed.

Lemma translate_synced c : translate (Script.synced c) = Script.synced c.
Proof. apply translate_id, synced_no_CR. Qed.

(** The lines of a rewritten file are the lines that were read, with the
    third one replaced. *)
Lemma readlines_synced c :
  readlines (Script.synced c) = <[2 := Script.version_line]> (readlines (translate c)).
Proof.
  apply readlines_writelines, lines_wf_insert.
  - apply lines_wf_readlines.
  - apply terminated_version_line.
Qed.


Lemma synced_idem c : Script.synced (Script.synced c) = Script.synced c.
Proof.
  unfold Script.synced at 1. rewrite translate_synced, readlines_synced.
  by rewrite list_insert_insert_eq.
Qed.

End line_facts.

(** ** Facts about the loop body and the loop *)

Section script_facts.
Import Text Script.


(** The loop body, case by case. *)
Lemma synchronize_one_spec i w :
  synchronize_one i w =
    match fs w !! i with
    | None => (Raise (FileNotFoundError i), w)
    | Some f =>
        if readable f then
          if decide (2 < length (readlines (translate (content f)))) then
            if writable f then (Ok (), passed i f w)
            else (Raise (PermissionError i), record (Read i) w)
          else (Raise IndexError, record (Read i) w)
        else (Raise (PermissionError i), w)
    end.
Proof.
  unfold synchronize_one, mbind, M_bind, open_r_readlines.
  destruct (fs w !! i) as [f|] eqn:Hi; [|done].
  destruct (readable f) eqn:Hr; [|done].
  unfold setitem. case_decide; [|done].
  unfold mret, M_ret, open_w. cbn [fs record]. rewrite Hi.
  destruct (writable f) eqn:Hw; [|done].
  unfold write. cbn [fs record set_fs]. rewrite lookup_insert_eq.
  unfold print, passed, synced_file, synced, pass_events, record, set_stdout, set_fs.
  cbn [fs argv environ stdout history readable writable content].
  rewrite insert_insert_eq, Hr, Hw, <- !app_assoc. done.
Qed.

Lemma ready_file_spec f :
  ready_file f = true ↔
  readable f = true ∧ writable f = true ∧
  2 < length (readlines (translate (content f))).
Proof.
  unfold ready_file. rewrite !andb_true_iff, bool_decide_eq_true. tauto.
Qed.

Lemma ready_spec m p :
  ready m p = true ↔ ∃ f, m !! p = Some f ∧ ready_file f = true.
Proof.
  unfold ready. destruct (m !! p) as [f|]; [|split; [done|by intros (? & ? & ?)]].
  split; [by exists f|]. by intros (? & [= <-] & ?).
Qed.

Lemma synchronize_one_ready i w f :
  fs w !! i = Some f → ready_file f = true →
  synchronize_one i w = (Ok (), passed i f w).
Proof.
  intros Hi (Hr & Hw & Hlen)%ready_file_spec.
  rewrite synchronize_one_spec, Hi, Hr, Hw. by rewrite decide_True.
Qed.

(** A pass that ends well went over a ready file. *)
Lemma synchronize_one_Ok_inv i w w' :
  synchronize_one i w = (Ok (), w') →
  ∃ f, fs w !! i = Some f ∧ ready_file f = true ∧ w' = passed i f w.
Proof.
  rewrite synchronize_one_spec. destruct (fs w !! i) as [f|]; [|done].
  destruct (readable f) eqn:Hr; [|done]. case_decide; [|done].
  destruct (writable f) eqn:Hw; [|done]. intros [= <-].
  exists f. split_and!; [done| |done]. apply ready_file_spec. done.
Qed.

(** A pass that raises changes no file and prints nothing. *)
Lemma synchronize_one_Raise_inv i w e w' :
  synchronize_one i w = (Raise e, w') →
  fs w' = fs w ∧ stdout w' = stdout w ∧ argv w' = argv w ∧
  environ w' = environ w ∧
  (history w' = history w ∨ history w' = history w ++ [Read i]).
Proof.
  rewrite synchronize_one_spec. destruct (fs w !! i) as [f|].
  - destruct (readable f); [|intros [= <- <-]; auto 10].
    case_decide; [|intros [= <- <-]; auto 10].
    destruct (writable f); [done|intros [= <- <-]; auto 10].
  - intros [= <- <-]. auto 10.
Qed.

Lemma for_each_cons {A} (i : A) l body w :
  for_each (i :: l) body w =
    match body i w with
    | (Ok _, w') => for_each l body w'
    | (Raise e, w') => (Raise e, w')
    end.
Proof. done. Qed.


Lemma synced_file_idem f : synced_file (synced_file f) = synced_file f.
Proof. unfold synced_file. simpl. by rewrite synced_idem. Qed.

Lemma ready_file_synced f : ready_file (synced_file f) = ready_file f.
Proof.
  unfold ready_file, synced_file. simpl.
  by rewrite translate_synced, readlines_synced, length_insert.
Qed.

Lemma confirmations_cons p l :
  confirmations (p :: l) = confirmation p ++ [LF] ++ confirmations l.
Proof. unfold confirmations. simpl. by rewrite <- app_assoc. Qed.

(** A run of the loop over [l] that ends well: every path of [l] held a
    ready file and now holds its rewritten form, no other path changed,
    one confirmation per path was printed, in order, and the effects are
    the passes, one after the other. *)
Lemma for_each_Ok l w0 w :
  for_each l synchronize_one w0 = (Ok (), w) →
  (∀ p, p ∈ l → ready (fs w0) p = true) ∧
  (∀ p, fs w !! p =
        if decide (p ∈ l) then synced_file <$> fs w0 !! p else fs w0 !! p) ∧
  stdout w = stdout w0 ++ confirmations l ∧
  history w =
    history w0 ++ concat ((λ p, pass_events p (chars_at (fs w) p)) <$> l) ∧
  argv w = argv w0 ∧ environ w = environ w0.
Proof.
  revert w0. induction l as [|i l IH]; intros w0.
  - intros [= <-]. split_and!; try done.
    + by intros p ?%elem_of_nil.
    + by rewrite app_nil_r.
    + by rewrite app_nil_r.
  - rewrite for_each_cons.
    destruct (synchronize_one i w0) as [[[]|e] w1] eqn:H1; [|done].
    apply synchronize_one_Ok_inv in H1 as (f & Hi & Hf & ->).
    intros (Hready & Hfs & Hout & Hhist & Hargv & Henv)%IH.
    cbn [passed fs stdout history argv environ] in *.
    assert (Hi' : fs w !! i = Some (synced_file f)).
    { rewrite Hfs, lookup_insert_eq. case_decide; [|done].
      simpl. by rewrite synced_file_idem. }
    split_and!; [| | | |done|done].
    + intros p [->|Hp]%elem_of_cons.
      * apply ready_spec. eauto.
      * specialize (Hready p Hp). apply ready_spec in Hready as (g & Hg & Hrg).
        apply ready_spec. destruct (decide (p = i)) as [->|Hne].
        -- rewrite lookup_insert_eq in Hg. injection Hg as <-.
           rewrite ready_file_synced in Hrg. eauto.
        -- rewrite lookup_insert_ne in Hg by done. eauto.
    + intros p. destruct (decide (p = i)) as [->|Hne].
      * rewrite Hi', Hi. by rewrite decide_True by (apply elem_of_cons; by left).
      * rewrite Hfs, lookup_insert_ne by done.
        destruct (decide (p ∈ l)) as [Hp|Hp].
        -- rewrite decide_True by (apply elem_of_cons; by right). done.
        -- rewrite decide_False; [done|]. rewrite elem_of_cons. tauto.
    + rewrite Hout, confirmations_cons, <- !app_assoc. done.
    + rewrite Hhist, <- !app_assoc. f_equal.
      rewrite fmap_cons, concat_cons. f_equal.
      unfold chars_at. by rewrite Hi'.
Qed.

(** When every path of [l] holds a ready file the loop ends well. *)
Lemma for_each_ready l w0 :
  (∀ p, p ∈ l → ready (fs w0) p = true) →
  ∃ w, for_each l synchronize_one w0 = (Ok (), w).
Proof.
  revert w0. induction l as [|i l IH]; intros w0 Hready; [by eexists|].
  rewrite for_each_cons.
  destruct (proj1 (ready_spec _ _) (Hready i ltac:(apply elem_of_cons; by left))) as (f & Hi & Hf).
  rewrite (synchronize_one_ready i w0 f) by done.
  apply IH. intros p Hp. specialize (Hready p ltac:(apply elem_of_cons; by right)).
  apply ready_spec in Hready as (g & Hg & Hrg). apply ready_spec.
  cbn [passed fs]. destruct (decide (p = i)) as [->|Hne].
  - rewrite lookup_insert_eq. exists (synced_file f).
    split; [done|]. rewrite ready_file_synced. congruence.
  - rewrite lookup_insert_ne by done. eauto.
Qed.

(** A run of the loop that raises stopped at one path, after ending well
    on those before it. *)
Lemma for_each_Raise {A} (l : list A) body w0 e w' :
  for_each l body w0 = (Raise e, w') →
  ∃ pre i post w,
    l = pre ++ i :: post ∧ for_each pre body w0 = (Ok (), w) ∧
    body i w = (Raise e, w').
Proof.
  revert w0. induction l as [|i l IH]; intros w0; [done|].
  rewrite for_each_cons. destruct (body i w0) as [[[]|e1] w1] eqn:H1.
  - intros (pre & k & post & w & -> & Hpre & Hk)%IH.
    exists (i :: pre), k, post, w. split_and!; [done| |done].
    by rewrite for_each_cons, H1.
  - intros [= <- <-]. by exists [], i, l, w0.
Qed.





End script_facts.

(** ** The properties of the specification *)

Section claims.
Import Text Script Samples.

Lemma all_ready_spec m :
  all_ready m = true ↔ ∀ p, p ∈ locations → ready m p = true.
Proof.
  unfold all_ready. rewrite forallb_forall.
  split; intros H p Hp; apply H; by apply list_elem_of_In.
Qed.










(** C3: the scenario of the specification.  The version constant is
    [0.2.5]; a pass over a file whose lines are those of [manifest_before]
    leaves a file whose lines are those of [manifest_after], and appends to
    standard output the line [<path> version updated].  The same holds for
    the whole script when each of its three targets holds that file. *)
Theorem manifest_scenario (i : string) (m : gmap string file)
    (av : list string) (env : gmap string string) (out : text)
    (hist : list event) :
  VERSION = "0.2.5"%string ∧
  readlines (translate (concat manifest_before)) = manifest_before ∧
  (∃ w' f',
     synchronize_one i
       (World (<[i := File true true (concat manifest_before)]> m) av env out hist)
       = (Ok (), w') ∧
     fs w' !! i = Some f' ∧
     readlines (translate (content f')) = manifest_after ∧
     raw_lines (content f') = manifest_after ∧
     stdout w' = out ++ of_string i ++ of_string " version updated" ++ [LF]) ∧
  (∃ w',
     synchronize (start (files_at locations (concat manifest_before))) = (Ok (), w') ∧
     (∀ p, p ∈ locations →
        ∃ f', fs w' !! p = Some f' ∧ raw_lines (content f') = manifest_after) ∧
     readlines (stdout w') =
       (λ p, of_string p ++ of_string " version updated" ++ [LF]) <$> locations).
Proof.
  split_and!; [done|by vm_compute| |].
  - eexists _, _. split_and!.
    + apply (synchronize_one_ready _ _ (File true true (concat manifest_before)));
        [apply lookup_insert_eq|by vm_compute].
    + apply lookup_insert_eq.
    + by vm_compute.
    + by vm_compute.
    + cbn [passed stdout]. unfold confirmation. by rewrite <- !app_assoc.
  - destruct (for_each_ready locations
                (start (files_at locations (concat manifest_before)))) as [w' Hw'].
    { apply all_ready_spec. by vm_compute. }
    exists w'. split; [done|].
    apply for_each_Ok in Hw' as (_ & Hfs & Hout & _). split.
    + intros p Hp. rewrite Hfs, decide_True by done.
      repeat (apply elem_of_cons in Hp as [->|Hp]);
        [..|by apply elem_of_nil in Hp];
        (eexists; split; [reflexivity|by vm_compute]).
    + rewrite Hout. by vm_compute.
Qed.










(** C8: when the script ends well, what it has added to standard output
    is one line [<path> version updated] per target, in the order of
    [locations], and nothing else; in the order of effects each of these
    lines comes right after the write to its target and before anything is
    done for the next target. *)
Theorem one_confirmation_per_target (w0 w : world) :
  synchronize w0 = (Ok (), w) →
  ∃ out,
    stdout w = stdout w0 ++ out ∧
    out = concat ((λ p, of_string p ++ of_string " version updated" ++ [LF])
                    <$> locations) ∧
    readlines out =
      (λ p, of_string p ++ of_string " version updated" ++ [LF]) <$> locations ∧
    history w =
      history w0 ++
      concat ((λ p, [Read p; Truncated p; Wrote p (chars_at (fs w) p);
                     Printed (of_string p ++ of_string " version updated")])
                <$> locations).
Proof.
  intros (_ & _ & Hout & Hhist & _)%for_each_Ok.
  exists (confirmations locations). split_and!; [done|by vm_compute..|done].
Qed.

Lemma one_confirmation_per_target_witness :
  ∃ out,
    stdout (synchronize all_crlf).2 = stdout all_crlf ++ out ∧
    out = concat ((λ p, of_string p ++ of_string " version updated" ++ [LF])
                    <$> locations) ∧
    readlines out =
      (λ p, of_string p ++ of_string " version updated" ++ [LF]) <$> locations ∧
    history (synchronize all_crlf).2 =
      history all_crlf ++
      concat ((λ p, [Read p; Truncated p;
                     Wrote p (chars_at (fs (synchronize all_crlf).2) p);
                     Printed (of_string p ++ of_string " version updated")])
                <$> locations).
Proof.
  apply one_confirmation_per_target. vm_compute. reflexivity.
Defined.





End claims.

(** ** How a run ends, for any start *)

Section run_facts.
Import Text Script.


Lemma synchronize_one_not_ready i w :
  ready (fs w) i = false → ∃ e, (synchronize_one i w).1 = Raise e.
Proof.
  intros Hnr. destruct (synchronize_one i w) as [[[]|e] w'] eqn:H; [|by exists e].
  apply synchronize_one_Ok_inv in H as (f & Hf & Hrf & _).
  assert (ready (fs w) i = true) by (apply ready_spec; eauto). congruence.
Qed.

(** Any run of the loop over [l]: it went through a first part [pre] of
    [l], whose paths held ready files, and either that was all of [l] or
    the pass over the next path raised. *)
Lemma for_each_outcome l w0 :
  ∃ pre post,
    l = pre ++ post ∧
    (∀ p, p ∈ pre → ready (fs w0) p = true) ∧
    (∀ p, fs (for_each l synchronize_one w0).2 !! p =
          if decide (p ∈ pre) then synced_file <$> fs w0 !! p else fs w0 !! p) ∧
    stdout (for_each l synchronize_one w0).2 = stdout w0 ++ confirmations pre ∧
    argv (for_each l synchronize_one w0).2 = argv w0 ∧
    environ (for_each l synchronize_one w0).2 = environ w0 ∧
    (post = [] ∧ (for_each l synchronize_one w0).1 = Ok () ∨
     ∃ i rest e w,
       post = i :: rest ∧ (for_each l synchronize_one w0).1 = Raise e ∧
       for_each pre synchronize_one w0 = (Ok (), w) ∧
       (synchronize_one i w).1 = Raise e).
Proof.
  destruct (for_each l synchronize_one w0) as [[[]|e] w'] eqn:Hrun.
  - pose proof (for_each_Ok _ _ _ Hrun) as (Hready & Hfs & Hout & _ & Hargv & Henv).
    exists l, []. rewrite app_nil_r. split_and!; auto.
  - apply for_each_Raise in Hrun as (pre & i & post & w & -> & Hpre & Hi).
    pose proof (for_each_Ok _ _ _ Hpre) as (Hready & Hfs & Hout & _ & Hargv & Henv).
    pose proof (synchronize_one_Raise_inv _ _ _ _ Hi) as (Efs & Eout & Eargv & Eenv & _).
    exists pre, (i :: post). cbn [fst snd]. rewrite Efs, Eout, Eargv, Eenv.
    split_and!; auto. right. exists i, post, e, w. by rewrite Hi.
Qed.






End run_facts.

(** ** Further properties of the script *)

Section more_properties.
Import Text Script Samples.





(** X4: the script never creates a file, never removes one and never changes
    what may be read or written: after any run the same paths exist, with
    the same permissions. *)
Theorem paths_and_permissions_kept (w0 : world) (p : string) :
  readable <$> fs (synchronize w0).2 !! p = readable <$> fs w0 !! p ∧
  writable <$> fs (synchronize w0).2 !! p = writable <$> fs w0 !! p ∧
  (fs (synchronize w0).2 !! p = None ↔ fs w0 !! p = None).
Proof.
  destruct (for_each_outcome locations w0) as (pre & post & _ & _ & Hfs & _).
  unfold synchronize. rewrite Hfs.
  case_decide; [|done]. by destruct (fs w0 !! p).
Qed.














End more_properties.
